(** * Escalator: process start-up, node-group validation and shutdown

    A shallow embedding of [cmd/main.go].  The program is one [main]
    function that talks to the outside world (flag parsing, logrus, the
    Kubernetes client constructors, the file system, the controller
    package) and terminates the process through [log.Fatalf].  It is
    embedded as a computation in a small writer-with-exit monad: a run
    yields the ordered list of the calls it made to the outside world
    together with either a normal return or an exit status.

    The goroutine started by [main] (the signal watcher) is embedded as a
    transition system over the two channels it shares with the runtime. *)

From stdpp Require Import base numbers list strings sorting.

Open Scope string_scope.
Open Scope Z_scope.
Open Scope list_scope.

(** ** Go values used by [main] *)

(** A Go [error], represented by its message. *)
Definition error := string.

(** [*os.File]: a handle on an opened file, represented by a name. *)
Definition File := string.

(** [os.Signal] values that reach the running process.  [SIGUSR1] stands
    for the signals that [main] does not register for and that the Go
    runtime catches without taking any action.  A signal whose default
    action ends the process ends the run at once and is not part of a
    schedule below. *)
Inductive Signal := SIGINT | SIGTERM | SIGUSR1.

#[global] Instance Signal_eq_dec : EqDecision Signal.
Proof. solve_decision. Defined.

Module kubernetes.
(** [kubernetes.Interface]: an opaque client handle. *)
Definition Interface := nat.
End kubernetes.

Module controller.

(** Modelled from the spec: the declaration of [controller.NodeGroupOptions]
    is not part of the sources at hand.  [main] reads the fields [Name] and
    [DryMode]; the spec (section 3) adds the scaling parameters min and max
    size, which only the validator looks at.  [NG_DryMode] is the field
    [DryMode] of the node group; [Opts] below has a field of that name too. *)
Record NodeGroupOptions := {
  Name : string;
  NG_DryMode : bool;
  MinNodes : Z;
  MaxNodes : Z
}.

(** [controller.Opts], with the four fields [main] fills in. *)
Record Opts := {
  ScanInterval : Z;
  K8SClient : kubernetes.Interface;
  NodeGroups : list NodeGroupOptions;
  DryMode : bool
}.

End controller.

#[global] Instance NodeGroupOptions_eq_dec : EqDecision controller.NodeGroupOptions.
Proof. solve_decision. Defined.

#[global] Instance Opts_eq_dec : EqDecision controller.Opts.
Proof. solve_decision. Defined.

(** ** The outside world *)

(** logrus levels, in the order of their numeric values 0..5. *)
Inductive Level :=
  PanicLevel | FatalLevel | ErrorLevel | WarnLevel | InfoLevel | DebugLevel.

#[global] Instance Level_eq_dec : EqDecision Level.
Proof. solve_decision. Defined.

(** The field attached to a log entry by [log.WithField] / [log.WithError]. *)
Inductive Field :=
| WithField (key value : string)
| WithError (err : error).

#[global] Instance Field_eq_dec : EqDecision Field.
Proof. solve_decision. Defined.

(** An argument of a log call. *)
Inductive Arg :=
| AInt (n : Z)
| AStr (s : string)
| ABool (b : bool)
| AErr (e : error)
| ASig (s : Signal).

#[global] Instance Arg_eq_dec : EqDecision Arg.
Proof. solve_decision. Defined.

(** The calls [main] makes to other packages, in the order of the run.
    A [EvLog] entry records the call to the logging API, with its level,
    fields, message (or format) and arguments; whether logrus prints the
    entry at the configured level is logrus's business.  [metrics.Start],
    [controller.NewController] and [RunForever] are recorded as calls that
    return; what they do lies outside [main.go].  In particular a result
    [Ok tt] of [main] below says that every call of [main] was made, the
    last one being [RunForever]; when that call returns, and whether, is
    the driver's business. *)
Inductive Event :=
| EvParse
| EvLog (lvl : Level) (fields : list Field) (msg : string) (args : list Arg)
| EvSetLevel (lvl : Z)
| EvNewOutOfClusterClient (path : string)
| EvNewInClusterClient
| EvOpen (path : string)
| EvUnmarshal (f : File)
| EvValidate (ng : controller.NodeGroupOptions)
| EvNotify (sigs : list Signal)
| EvGo
| EvMetricsStart (address : string)
| EvNewController (opts : controller.Opts)
| EvRunForever (runImmediately : bool).

#[global] Instance Event_eq_dec : EqDecision Event.
Proof. solve_decision. Defined.

(** Everything [main] reads once [kingpin.Parse] (line 29) has returned:
    the six command-line flags as parsed (lines 19-26) and the answers of
    the packages it calls.  A process that [kingpin.Parse] itself ends (a
    missing required flag, a request for help) never gets this far and is
    no run of [main] below.  [kubeConfigFile] is a [*string]; [None] is the
    nil pointer. *)
Record World := {
  loglevel : Z;
  addr : string;
  scanInterval : Z;
  kubeConfigFile : option string;
  nodegroupConfigFile : string;
  drymode : bool;
  (** Modelled from the spec: the client constructors of package [k8s] are
      not part of the sources at hand; by section 4.1 they either produce a
      handle or fail fatally, which is [None] here. *)
  NewOutOfClusterClient : string -> option kubernetes.Interface;
  NewInClusterClient : option kubernetes.Interface;
  (** [os.Open]: the file or an error. *)
  Open : string -> File + error;
  (** [controller.UnmarshalNodeGroupOptions]: Go returns both the slice and
      the error; the slice may be anything when the error is not nil. *)
  UnmarshalNodeGroupOptions :
    File -> list controller.NodeGroupOptions * option error;
  (** [controller.ValidateNodeGroup]: the errors found in one node group. *)
  ValidateNodeGroup : controller.NodeGroupOptions -> list error
}.

(** ** Runs: a trace of calls and a result *)

Inductive Result (A : Type) :=
| Ok (a : A)
| Exit (status : Z).
Arguments Ok {A} a.
Arguments Exit {A} status.

Definition Proc (A : Type) : Type := list Event * Result A.

Definition trace {A} (m : Proc A) : list Event := fst m.
Definition result {A} (m : Proc A) : Result A := snd m.

Definition ret {A} (a : A) : Proc A := ([], Ok a).

Definition bind {A B} (m : Proc A) (f : A -> Proc B) : Proc B :=
  match m with
  | (t, Ok a) => let '(t', r) := f a in (t ++ t', r)
  | (t, Exit s) => (t, Exit s)
  end.

Notation "x <- m ;; k" := (bind m (fun x => k))
  (at level 100, m at next level, right associativity).
Notation "m ;; k" := (bind m (fun _ => k))
  (at level 100, right associativity).

Definition call (e : Event) : Proc unit := ([e], Ok tt).

(** [os.Exit]. *)
Definition os_Exit {A} (status : Z) : Proc A := ([], Exit status).

(** An [if] without [else]. *)
Definition when (c : bool) (m : Proc unit) : Proc unit :=
  if c then m else ret tt.

(** [for _, x := range l { body x }]. *)
Fixpoint for_range {A} (l : list A) (body : A -> Proc unit) : Proc unit :=
  match l with
  | [] => ret tt
  | x :: l' => body x ;; for_range l' body
  end.

(** logrus: [Infoln], [Infof], [Errorln] log and return; [Fatalf] logs at
    the fatal level and then calls [os.Exit(1)]. *)
Definition log_Info (fields : list Field) (msg : string) (args : list Arg)
  : Proc unit := call (EvLog InfoLevel fields msg args).

Definition log_Errorln (fields : list Field) (msg : string) (args : list Arg)
  : Proc unit := call (EvLog ErrorLevel fields msg args).

Definition log_Fatalf {A} (fields : list Field) (msg : string) (args : list Arg)
  : Proc A := call (EvLog FatalLevel fields msg args) ;; os_Exit 1.

(** Calls into [k8s], [os] and [controller], answered by the world.
    Modelled from the spec: a client constructor that fails ends the
    process (section 4.1, fails fatally); the status it ends with is taken
    to be that of [log.Fatalf]. *)
Definition k8s_NewOutOfClusterClient (w : World) (path : string)
  : Proc kubernetes.Interface :=
  call (EvNewOutOfClusterClient path) ;;
  match NewOutOfClusterClient w path with
  | Some c => ret c
  | None => os_Exit 1
  end.

Definition k8s_NewInClusterClient (w : World) : Proc kubernetes.Interface :=
  call EvNewInClusterClient ;;
  match NewInClusterClient w with
  | Some c => ret c
  | None => os_Exit 1
  end.

Definition os_Open (w : World) (path : string) : Proc (File + error) :=
  call (EvOpen path) ;; ret (Open w path).

Definition controller_UnmarshalNodeGroupOptions (w : World) (f : File)
  : Proc (list controller.NodeGroupOptions * option error) :=
  call (EvUnmarshal f) ;; ret (UnmarshalNodeGroupOptions w f).

Definition controller_ValidateNodeGroup (w : World)
  (ng : controller.NodeGroupOptions) : Proc (list error) :=
  call (EvValidate ng) ;; ret (ValidateNodeGroup w ng).

(** ** [main] (lines 28-96) *)

(** The body of the validation loop, lines 59-68. *)
Definition validate_body (w : World) (nodegroup : controller.NodeGroupOptions)
  : Proc unit :=
  errs <- controller_ValidateNodeGroup w nodegroup ;;
  when (0 <? length errs)%nat
    (log_Errorln [WithField "nodegroup" (controller.Name nodegroup)]
       "Validating options: [FAIL]" [] ;;
     for_range errs (fun err =>
       log_Errorln [WithError err] "failed check" []) ;;
     log_Fatalf [WithField "nodegroup" (controller.Name nodegroup)]
       "There are %v problems when validating the options. Please check %v"
       [AInt (Z.of_nat (length errs)); AStr (nodegroupConfigFile w)]) ;;
  log_Info [WithField "nodegroup" (controller.Name nodegroup)]
    "Validating options: [PASS]" [] ;;
  log_Info [WithField "nodegroup" (controller.Name nodegroup)]
    "Registered with drymode %v"
    [ABool (controller.NG_DryMode nodegroup || drymode w)].

Definition main (w : World) : Proc unit :=
  call EvParse ;;
  (* lines 31-35 *)
  when ((loglevel w <? 0) || (loglevel w >? 5))
    (log_Fatalf []
       "Invalid log level %v provided. Must be between 0 (Critical) and 5 (Debug)"
       [AInt (loglevel w)]) ;;
  call (EvSetLevel (loglevel w)) ;;
  log_Info [] "Starting with log level" [AInt (loglevel w)] ;;
  (* lines 38-45 *)
  k8sClient <-
    (let inCluster :=
       log_Info [] "Using in cluster config" [] ;;
       k8s_NewInClusterClient w in
     match kubeConfigFile w with
     | Some path =>
         if (0 <? String.length path)%nat then
           log_Info [] "Using out of cluster config" [] ;;
           k8s_NewOutOfClusterClient w path
         else inCluster
     | None => inCluster
     end) ;;
  (* lines 48-55 *)
  opened <- os_Open w (nodegroupConfigFile w) ;;
  configFile <-
    match opened with
    | inl f => ret f
    | inr err => log_Fatalf [] "Failed to open configFile: %v" [AErr err]
    end ;;
  decoded <- controller_UnmarshalNodeGroupOptions w configFile ;;
  nodegroups <-
    match decoded with
    | (ngs, None) => ret ngs
    | (_, Some err) => log_Fatalf [] "Failed to decode configFile: %v" [AErr err]
    end ;;
  (* lines 58-69 *)
  for_range nodegroups (validate_body w) ;;
  (* lines 71-76 *)
  let opts := {| controller.ScanInterval := scanInterval w;
                 controller.K8SClient := k8sClient;
                 controller.NodeGroups := nodegroups;
                 controller.DryMode := drymode w |} in
  (* lines 79-90: the two channels are created, SIGINT and SIGTERM are
     routed to [signalChan], and the watcher goroutine is started *)
  call (EvNotify [SIGINT; SIGTERM]) ;;
  call EvGo ;;
  (* line 92 *)
  call (EvMetricsStart (addr w)) ;;
  (* lines 94-95 *)
  call (EvNewController opts) ;;
  call (EvRunForever true).

(** ** The signal watcher (lines 79-90) *)

(** A Go channel with a buffer: the queued values, the capacity given to
    [make], and whether [close] has been called on it. *)
Record chan (A : Type) := Chan {
  buf : list A;
  cap : nat;
  closed : bool
}.
Arguments Chan {A} buf cap closed.
Arguments buf {A} c.
Arguments cap {A} c.
Arguments closed {A} c.

(** [make(chan A, n)]. *)
Definition make {A} (n : nat) : chan A := Chan [] n false.

(** The send done by package [signal]: it never blocks, a value that does
    not fit in the buffer is dropped. *)
Definition send_nonblocking {A} (c : chan A) (x : A) : chan A :=
  if (length (buf c) <? cap c)%nat then Chan (buf c ++ [x]) (cap c) (closed c)
  else c.

(** The signals named at line 84. *)
Definition notified : list Signal := [SIGINT; SIGTERM].

(** Where the goroutine of lines 85-90 stands: about to run the statement
    of the given line, or returned.  After line 86 it holds [sig]. *)
Inductive Watcher :=
| AtRecv
| AtLogSignal (sig : Signal)
| AtLogStopping
| AtClose
| Returned.

#[global] Instance Watcher_eq_dec : EqDecision Watcher.
Proof. solve_decision. Defined.

(** The state shared by the runtime's signal delivery and the watcher.
    [closes] counts the executions of [close(stopChan)]; [panicked] is set
    by a [close] of a closed channel. *)
Record Runtime := {
  signalChan : chan Signal;
  stopChan : chan unit;
  watcher : Watcher;
  logged : list Event;
  closes : nat;
  panicked : bool
}.

(** Lines 79-85: both channels are made with capacity 1 and the goroutine
    is started. *)
Definition started : Runtime := {|
  signalChan := make 1;
  stopChan := make 1;
  watcher := AtRecv;
  logged := [];
  closes := 0;
  panicked := false
|}.

(** What can happen next: the operating system delivers a signal to the
    process, or the scheduler lets the watcher run its next statement. *)
Inductive Action :=
| Deliver (sig : Signal)
| RunWatcher.

#[global] Instance Action_eq_dec : EqDecision Action.
Proof. solve_decision. Defined.

(** [signal.Notify(signalChan, SIGINT, SIGTERM)]: the registered signals are
    relayed to [signalChan], the others are not. *)
Definition deliver (sig : Signal) (r : Runtime) : Runtime :=
  if bool_decide (sig ∈ notified) then
    {| signalChan := send_nonblocking (signalChan r) sig;
       stopChan := stopChan r; watcher := watcher r; logged := logged r;
       closes := closes r; panicked := panicked r |}
  else r.

(** One statement of the goroutine.  The receive of line 86 blocks on an
    empty channel: the state is unchanged. *)
Definition run_watcher (r : Runtime) : Runtime :=
  match watcher r with
  | AtRecv =>
      match buf (signalChan r) with
      | [] => r
      | sig :: rest =>
          {| signalChan := Chan rest (cap (signalChan r)) (closed (signalChan r));
             stopChan := stopChan r; watcher := AtLogSignal sig;
             logged := logged r; closes := closes r; panicked := panicked r |}
      end
  | AtLogSignal sig =>
      {| signalChan := signalChan r; stopChan := stopChan r;
         watcher := AtLogStopping;
         logged := logged r ++ [EvLog InfoLevel [] "Signal received: %v" [ASig sig]];
         closes := closes r; panicked := panicked r |}
  | AtLogStopping =>
      {| signalChan := signalChan r; stopChan := stopChan r;
         watcher := AtClose;
         logged := logged r ++ [EvLog InfoLevel [] "Stopping autoscaler gracefully" []];
         closes := closes r; panicked := panicked r |}
  | AtClose =>
      {| signalChan := signalChan r;
         stopChan := Chan (buf (stopChan r)) (cap (stopChan r)) true;
         watcher := Returned;
         logged := logged r;
         closes := S (closes r);
         panicked := panicked r || closed (stopChan r) |}
  | Returned => r
  end.

(** A panic ends the process: nothing happens after it. *)
Definition step (r : Runtime) (a : Action) : Runtime :=
  if panicked r then r
  else match a with
       | Deliver sig => deliver sig r
       | RunWatcher => run_watcher r
       end.

Definition run (r : Runtime) (acts : list Action) : Runtime :=
  fold_left step acts r.

(** The registered signals among the deliveries of a schedule, in order. *)
Definition deliveries (acts : list Action) : list Signal :=
  omap (fun a => match a with
                 | Deliver sig => if bool_decide (sig ∈ notified) then Some sig else None
                 | RunWatcher => None
                 end) acts.

(** ** A validator and worlds to run [main] in *)

(** Modelled from the spec: [controller.ValidateNodeGroup] is not part of
    the sources at hand.  Section 4.3 names two rules, a missing name and a
    max size below the min size, checked independently of each other. *)
Definition spec_ValidateNodeGroup (ng : controller.NodeGroupOptions)
  : list error :=
  (if bool_decide (controller.Name ng = "") then ["missing name"] else []) ++
  (if controller.MaxNodes ng <? controller.MinNodes ng
   then ["max size < min size"] else []).

Definition nodegroup (name : string) (dry : bool) (lo hi : Z)
  : controller.NodeGroupOptions :=
  {| controller.Name := name; controller.NG_DryMode := dry;
     controller.MinNodes := lo; controller.MaxNodes := hi |}.

(** A world in which both client constructors succeed, the configuration
    file opens and decodes to [ngs]. *)
Definition world (lvl : Z) (kube : option string) (dry : bool)
  (ngs : list controller.NodeGroupOptions) : World :=
  {| loglevel := lvl;
     addr := ":8080";
     scanInterval := 60000000000;
     kubeConfigFile := kube;
     nodegroupConfigFile := "nodegroups.yaml";
     drymode := dry;
     NewOutOfClusterClient := fun _ => Some 1%nat;
     NewInClusterClient := Some 0%nat;
     Open := fun path => inl path;
     UnmarshalNodeGroupOptions := fun _ => (ngs, None);
     ValidateNodeGroup := spec_ValidateNodeGroup |}.

(** The same, except that the file does not open. *)
Definition world_unreadable (ngs : list controller.NodeGroupOptions) : World :=
  {| loglevel := 4;
     addr := ":8080";
     scanInterval := 60000000000;
     kubeConfigFile := None;
     nodegroupConfigFile := "nodegroups.yaml";
     drymode := false;
     NewOutOfClusterClient := fun _ => Some 1%nat;
     NewInClusterClient := Some 0%nat;
     Open := fun _ => inr "no such file or directory";
     UnmarshalNodeGroupOptions := fun _ => (ngs, None);
     ValidateNodeGroup := spec_ValidateNodeGroup |}.

(** The same, except that decoding fails after one entry was read. *)
Definition world_undecodable (ngs : list controller.NodeGroupOptions) : World :=
  {| loglevel := 4;
     addr := ":8080";
     scanInterval := 60000000000;
     kubeConfigFile := None;
     nodegroupConfigFile := "nodegroups.yaml";
     drymode := false;
     NewOutOfClusterClient := fun _ => Some 1%nat;
     NewInClusterClient := Some 0%nat;
     Open := fun path => inl path;
     UnmarshalNodeGroupOptions := fun _ => (take 1 ngs, Some "yaml: line 7");
     ValidateNodeGroup := spec_ValidateNodeGroup |}.

(** ** Reading a run *)

(** The two calls that start the control loop driver. *)
Definition is_driver (e : Event) : bool :=
  match e with
  | EvNewController _ | EvRunForever _ => true
  | _ => false
  end.

Definition driver_events (tr : list Event) : list Event :=
  List.filter is_driver tr.

(** The calls that resolve credentials. *)
Definition is_client (e : Event) : bool :=
  match e with
  | EvNewOutOfClusterClient _ | EvNewInClusterClient => true
  | _ => false
  end.

Definition client_events (tr : list Event) : list Event :=
  List.filter is_client tr.

(** The calls that load the configuration. *)
Definition is_config (e : Event) : bool :=
  match e with
  | EvOpen _ | EvUnmarshal _ => true
  | _ => false
  end.

Definition config_events (tr : list Event) : list Event :=
  List.filter is_config tr.

(** The node groups handed to the validator, in order. *)
Definition validated (tr : list Event) : list controller.NodeGroupOptions :=
  omap (fun e => match e with EvValidate ng => Some ng | _ => None end) tr.

(** The log entries of level error. *)
Definition is_error_log (e : Event) : bool :=
  match e with
  | EvLog ErrorLevel _ _ _ => true
  | _ => false
  end.

Definition error_logs (tr : list Event) : list Event :=
  List.filter is_error_log tr.

(** The entries lines 61 and 63 write for a node group and one of its
    errors. *)
Definition fail_header (ng : controller.NodeGroupOptions) : Event :=
  EvLog ErrorLevel [WithField "nodegroup" (controller.Name ng)]
    "Validating options: [FAIL]" [].

Definition failed_check (err : error) : Event :=
  EvLog ErrorLevel [WithError err] "failed check" [].

(** The entry line 68 writes for a node group. *)
Definition registered (ng : controller.NodeGroupOptions) (dry : bool) : Event :=
  EvLog InfoLevel [WithField "nodegroup" (controller.Name ng)]
    "Registered with drymode %v" [ABool dry].

(** A node group is offending when the validator finds an error in it. *)
Definition offending (w : World) (ng : controller.NodeGroupOptions) : Prop :=
  ValidateNodeGroup w ng <> [].

#[global] Instance offending_dec w ng : Decision (offending w ng).
Proof. unfold offending. apply _. Defined.

(** What one round of the loop leaves in the trace: for a node group
    without errors, and for one with errors. *)
Definition pass_events (w : World) (ng : controller.NodeGroupOptions)
  : list Event :=
  [EvValidate ng;
   EvLog InfoLevel [WithField "nodegroup" (controller.Name ng)]
     "Validating options: [PASS]" [];
   registered ng (controller.NG_DryMode ng || drymode w)].

Definition fail_events (w : World) (ng : controller.NodeGroupOptions)
  : list Event :=
  EvValidate ng :: fail_header ng ::
  map failed_check (ValidateNodeGroup w ng) ++
  [EvLog FatalLevel [WithField "nodegroup" (controller.Name ng)]
     "There are %v problems when validating the options. Please check %v"
     [AInt (Z.of_nat (length (ValidateNodeGroup w ng)));
      AStr (nodegroupConfigFile w)]].

(** Lines 39-45 produce the handle [c]: the path is set and the
    out-of-cluster constructor answers [c], or the path is nil or empty and
    the in-cluster constructor answers [c]. *)
Definition resolves (w : World) (c : kubernetes.Interface) : Prop :=
  (exists path, kubeConfigFile w = Some path /\ path <> "" /\
                NewOutOfClusterClient w path = Some c) \/
  ((kubeConfigFile w = None \/ kubeConfigFile w = Some "") /\
   NewInClusterClient w = Some c).

(** Lines 48-55 produce [ngs]: the file opens and decodes without error. *)
Definition loads (w : World) (ngs : list controller.NodeGroupOptions) : Prop :=
  exists f, Open w (nodegroupConfigFile w) = inl f /\
            UnmarshalNodeGroupOptions w f = (ngs, None).

(** Two entries of the sequence carry the same name. *)
Definition has_duplicate_names (ngs : list controller.NodeGroupOptions) : Prop :=
  ~ NoDup (controller.Name <$> ngs).

(** The entries lines 87 and 88 write. *)
Definition received (sig : Signal) : Event :=
  EvLog InfoLevel [] "Signal received: %v" [ASig sig].

Definition stopping : Event :=
  EvLog InfoLevel [] "Stopping autoscaler gracefully" [].



(** The watcher has run its last statement. *)
Definition has_returned (r : Runtime) : bool :=
  match watcher r with
  | Returned => true
  | _ => false
  end.

(** What holds of the runtime after the schedule [acts]: no panic; the
    signal channel holds at most the one signal that fits; [stopChan] is
    closed, and [close] has run once, exactly when the watcher has returned;
    and the watcher works on the first registered signal of the schedule. *)
Definition watcher_inv (acts : list Action) (r : Runtime) : Prop :=
  panicked r = false /\
  cap (signalChan r) = 1%nat /\
  (length (buf (signalChan r)) <= 1)%nat /\
  stopChan r = Chan [] 1 (has_returned r) /\
  closes r = (if has_returned r then 1 else 0)%nat /\
  match watcher r with
  | AtRecv => buf (signalChan r) = take 1 (deliveries acts) /\ logged r = []
  | AtLogSignal sig => head (deliveries acts) = Some sig /\ logged r = []
  | AtLogStopping =>
      exists sig, head (deliveries acts) = Some sig /\ logged r = [received sig]
  | AtClose | Returned =>
      exists sig, head (deliveries acts) = Some sig /\
                  logged r = [received sig; stopping]
  end.

(** ** More readings of a run *)

(** Lines 39-45 end the run: the constructor that is chosen fails. *)
Definition resolution_fails (w : World) : Prop :=
  (exists path, kubeConfigFile w = Some path /\ path <> "" /\
                NewOutOfClusterClient w path = None) \/
  ((kubeConfigFile w = None \/ kubeConfigFile w = Some "") /\
   NewInClusterClient w = None).

(** The calls of lines 84-95: signal routing, the watcher, the metrics
    endpoint and the driver. *)
Definition is_coordinator (e : Event) : bool :=
  match e with
  | EvNotify _ | EvGo | EvMetricsStart _
  | EvNewController _ | EvRunForever _ => true
  | _ => false
  end.

Definition coordinator_events (tr : list Event) : list Event :=
  List.filter is_coordinator tr.

(** The fatal log entries. *)
Definition is_fatal_log (e : Event) : bool :=
  match e with
  | EvLog FatalLevel _ _ _ => true
  | _ => false
  end.

(** The fatal log entries of a run, in order. *)
Definition fatal_logs (tr : list Event) : list Event :=
  List.filter is_fatal_log tr.

(** The levels handed to [log.SetLevel]. *)
Definition set_levels (tr : list Event) : list Z :=
  omap (fun e => match e with EvSetLevel l => Some l | _ => None end) tr.

(** The errors written by line 63. *)
Definition reported_errors (tr : list Event) : list error :=
  omap (fun e => match e with
                 | EvLog ErrorLevel [WithError err] _ _ => Some err
                 | _ => None
                 end) tr.

(** The names of the node groups reported as passing by line 67. *)
Definition passed_name (e : Event) : option string :=
  match e with
  | EvLog InfoLevel [WithField key name] msg [] =>
      if bool_decide (key = "nodegroup" /\ msg = "Validating options: [PASS]")
      then Some name else None
  | _ => None
  end.

Definition passed (tr : list Event) : list string := omap passed_name tr.

(** The place of a call in the text of [main]; log entries have none. *)
Definition stage (e : Event) : option nat :=
  match e with
  | EvParse => Some 0
  | EvSetLevel _ => Some 1
  | EvNewOutOfClusterClient _ | EvNewInClusterClient => Some 2
  | EvOpen _ => Some 3
  | EvUnmarshal _ => Some 4
  | EvValidate _ => Some 5
  | EvNotify _ => Some 6
  | EvGo => Some 7
  | EvMetricsStart _ => Some 8
  | EvNewController _ => Some 9
  | EvRunForever _ => Some 10
  | EvLog _ _ _ _ => None
  end%nat.

Definition stages (tr : list Event) : list nat := omap stage tr.

(** The fatal entry of line 65 for a node group with [n] errors. *)
Definition fatal_entry (w : World) (ng : controller.NodeGroupOptions)
  (n : nat) : Event :=
  EvLog FatalLevel [WithField "nodegroup" (controller.Name ng)]
    "There are %v problems when validating the options. Please check %v"
    [AInt (Z.of_nat n); AStr (nodegroupConfigFile w)].

(** The five calls that end a run of [main] that starts the driver. *)
Definition launch (w : World) (opts : controller.Opts) : list Event :=
  [EvNotify [SIGINT; SIGTERM]; EvGo; EvMetricsStart (addr w);
   EvNewController opts; EvRunForever true].



(** * Properties *)

(** ** The monad *)

Lemma bind_eq {A B} (m : Proc A) (f : A -> Proc B) :
  bind m f =
  (trace m ++ match result m with Ok a => trace (f a) | Exit _ => [] end,
   match result m with Ok a => result (f a) | Exit s => Exit s end).
Proof.
  destruct m as [t [a|s]]; cbn; [|by rewrite app_nil_r].
  by destruct (f a).
Qed.

(** ** The validation loop *)

Lemma for_range_failed_check (errs : list error) :
  for_range errs (fun err => log_Errorln [WithError err] "failed check" []) =
  (map failed_check errs, Ok tt).
Proof.
  induction errs as [|err errs IH]; [done|].
  cbn [for_range]. rewrite bind_eq, IH. done.
Qed.

Lemma validate_body_pass w ng :
  ValidateNodeGroup w ng = [] ->
  validate_body w ng = (pass_events w ng, Ok tt).
Proof. intros H. unfold validate_body. cbn. rewrite H. done. Qed.

Lemma validate_body_fail w ng :
  offending w ng ->
  validate_body w ng = (fail_events w ng, Exit 1).
Proof.
  unfold offending, validate_body, fail_events. intros H.
  unfold controller_ValidateNodeGroup.
  destruct (ValidateNodeGroup w ng) as [|err errs] eqn:E; [done|].
  rewrite !bind_eq. cbn [call ret trace result fst snd length Nat.ltb Nat.leb when].
  rewrite !bind_eq, for_range_failed_check. cbn.
  by rewrite app_nil_r.
Qed.

Lemma for_range_validate_pass w ngs :
  Forall (fun ng => ValidateNodeGroup w ng = []) ngs ->
  for_range ngs (validate_body w) = (ngs ≫= pass_events w, Ok tt).
Proof.
  induction 1 as [|ng ngs Hng _ IH]; [done|].
  cbn [for_range]. rewrite bind_eq, IH, validate_body_pass by done. done.
Qed.

Lemma for_range_validate_fail w ngs i ng :
  list_find (offending w) ngs = Some (i, ng) ->
  for_range ngs (validate_body w) =
  ((take i ngs ≫= pass_events w) ++ fail_events w ng, Exit 1).
Proof.
  revert i. induction ngs as [|x ngs IH]; intros i H; [done|].
  cbn [for_range]. rewrite bind_eq. cbn in H.
  destruct (decide (offending w x)) as [Hx|Hx].
  - simplify_eq. rewrite validate_body_fail by done.
    cbn. by rewrite app_nil_r.
  - destruct (list_find (offending w) ngs) as [[j y]|] eqn:E; [|done].
    cbn in H. simplify_eq.
    assert (ValidateNodeGroup w x = []) as Hp.
    { unfold offending in Hx. destruct (ValidateNodeGroup w x); [done|].
      by destruct Hx. }
    rewrite validate_body_pass, (IH j) by done. done.
Qed.

Lemma for_range_validate_none w ngs :
  list_find (offending w) ngs = None ->
  for_range ngs (validate_body w) = (ngs ≫= pass_events w, Ok tt).
Proof.
  intros H. apply for_range_validate_pass.
  apply Forall_forall. intros ng Hng.
  eapply list_find_None, Forall_forall in H; [|done].
  unfold offending in H. destruct (ValidateNodeGroup w ng); [done|].
  by destruct H.
Qed.

(** ** Projections of the loop's trace *)

Lemma driver_events_app t1 t2 :
  driver_events (t1 ++ t2) = driver_events t1 ++ driver_events t2.
Proof. apply List.filter_app. Qed.

Lemma client_events_app t1 t2 :
  client_events (t1 ++ t2) = client_events t1 ++ client_events t2.
Proof. apply List.filter_app. Qed.

Lemma config_events_app t1 t2 :
  config_events (t1 ++ t2) = config_events t1 ++ config_events t2.
Proof. apply List.filter_app. Qed.

Lemma error_logs_app t1 t2 :
  error_logs (t1 ++ t2) = error_logs t1 ++ error_logs t2.
Proof. apply List.filter_app. Qed.

Lemma validated_app t1 t2 :
  validated (t1 ++ t2) = validated t1 ++ validated t2.
Proof. apply omap_app. Qed.

Lemma driver_events_pass w ngs : driver_events (ngs ≫= pass_events w) = [].
Proof.
  induction ngs as [|ng ngs IH]; [done|].
  rewrite bind_cons, driver_events_app, IH. done.
Qed.

Lemma client_events_pass w ngs : client_events (ngs ≫= pass_events w) = [].
Proof.
  induction ngs as [|ng ngs IH]; [done|].
  rewrite bind_cons, client_events_app, IH. done.
Qed.

Lemma error_logs_pass w ngs : error_logs (ngs ≫= pass_events w) = [].
Proof.
  induction ngs as [|ng ngs IH]; [done|].
  rewrite bind_cons, error_logs_app, IH. done.
Qed.

Lemma validated_pass w ngs : validated (ngs ≫= pass_events w) = ngs.
Proof.
  induction ngs as [|ng ngs IH]; [done|].
  rewrite bind_cons, validated_app, IH. done.
Qed.

Lemma driver_events_failed_check errs :
  driver_events (map failed_check errs) = [].
Proof. induction errs as [|e errs IH]; [done|]. cbn. apply IH. Qed.

Lemma client_events_failed_check errs :
  client_events (map failed_check errs) = [].
Proof. induction errs as [|e errs IH]; [done|]. cbn. apply IH. Qed.

Lemma validated_failed_check errs : validated (map failed_check errs) = [].
Proof. induction errs as [|e errs IH]; [done|]. cbn. apply IH. Qed.

Lemma error_logs_failed_check errs :
  error_logs (map failed_check errs) = map failed_check errs.
Proof. induction errs as [|e errs IH]; [done|]. cbn. by rewrite <- IH at 2. Qed.

Lemma driver_events_fail w ng : driver_events (fail_events w ng) = [].
Proof.
  unfold fail_events. cbn.
  rewrite driver_events_app, driver_events_failed_check. done.
Qed.

Lemma client_events_fail w ng : client_events (fail_events w ng) = [].
Proof.
  unfold fail_events. cbn.
  rewrite client_events_app, client_events_failed_check. done.
Qed.

Lemma validated_fail w ng : validated (fail_events w ng) = [ng].
Proof.
  unfold fail_events. cbn.
  rewrite validated_app, validated_failed_check. done.
Qed.

Lemma error_logs_fail w ng :
  error_logs (fail_events w ng) =
  fail_header ng :: map failed_check (ValidateNodeGroup w ng).
Proof.
  unfold fail_events. cbn.
  rewrite error_logs_app, error_logs_failed_check. cbn. by rewrite app_nil_r.
Qed.

(** ** Running [main] *)

(** Every way [main] can go: the level check, the choice of the client
    constructor and its answer, the opening and the decoding of the file,
    and the first offending node group if there is one. *)
Ltac main_config w :=
  destruct (Open w (nodegroupConfigFile w)) as [?f|?err] eqn:?Hopen;
  [lazymatch goal with
   | H : Open w _ = inl ?f |- _ =>
       destruct (UnmarshalNodeGroupOptions w f) as [?ngs [?err|]] eqn:?Hdecode;
       [|destruct (list_find (offending w) ngs) as [[?i ?ng]|] eqn:?Hfind]
   end
  |].

Ltac main_client w :=
  destruct (kubeConfigFile w) as [?path|] eqn:?Hkube;
  [destruct (0 <? String.length path)%nat eqn:?Hlen;
   [destruct (NewOutOfClusterClient w path) as [?c|] eqn:?Hclient
   |destruct (NewInClusterClient w) as [?c|] eqn:?Hclient]
  |destruct (NewInClusterClient w) as [?c|] eqn:?Hclient];
  [main_config w| |main_config w| |main_config w|].

Ltac main_cases w :=
  destruct (loglevel w <? 0) eqn:?Hlo;
  [|destruct (loglevel w >? 5) eqn:?Hhi; [|main_client w]].

(** Runs [main] to the end in the case at hand. *)
Ltac main_run :=
  unfold main, log_Info, log_Errorln, log_Fatalf, k8s_NewOutOfClusterClient,
    k8s_NewInClusterClient, os_Open, controller_UnmarshalNodeGroupOptions;
  repeat first
    [ progress cbn [bind trace result fst snd call ret when os_Exit orb app]
    | match goal with
      | H : list_find (offending ?w) ?ngs = Some _
        |- context [for_range ?ngs (validate_body ?w)] =>
          rewrite (for_range_validate_fail _ _ _ _ H)
      | H : list_find (offending ?w) ?ngs = None
        |- context [for_range ?ngs (validate_body ?w)] =>
          rewrite (for_range_validate_none _ _ H)
      | H : ?x = _ |- context [?x] => rewrite H
      end ].

(** ** Projections of a trace, entry by entry *)

Lemma driver_events_cons e t :
  driver_events (e :: t) = (if is_driver e then [e] else []) ++ driver_events t.
Proof. unfold driver_events. cbn. by destruct (is_driver e). Qed.

Lemma client_events_cons e t :
  client_events (e :: t) = (if is_client e then [e] else []) ++ client_events t.
Proof. unfold client_events. cbn. by destruct (is_client e). Qed.

Lemma config_events_cons e t :
  config_events (e :: t) = (if is_config e then [e] else []) ++ config_events t.
Proof. unfold config_events. cbn. by destruct (is_config e). Qed.

Lemma error_logs_cons e t :
  error_logs (e :: t) = (if is_error_log e then [e] else []) ++ error_logs t.
Proof. unfold error_logs. cbn. by destruct (is_error_log e). Qed.

Lemma validated_cons e t :
  validated (e :: t) =
  match e with EvValidate ng => [ng] | _ => [] end ++ validated t.
Proof. by destruct e. Qed.

Lemma config_events_pass w ngs : config_events (ngs ≫= pass_events w) = [].
Proof.
  induction ngs as [|ng ngs IH]; [done|].
  rewrite bind_cons, config_events_app, IH. done.
Qed.

Lemma config_events_failed_check errs :
  config_events (map failed_check errs) = [].
Proof. induction errs as [|e errs IH]; [done|]. cbn. apply IH. Qed.

Lemma config_events_fail w ng : config_events (fail_events w ng) = [].
Proof.
  unfold fail_events. cbn.
  rewrite config_events_app, config_events_failed_check. done.
Qed.

Create Rewrite HintDb proj.
#[global] Hint Rewrite
  driver_events_cons client_events_cons config_events_cons error_logs_cons
  validated_cons
  driver_events_app client_events_app config_events_app error_logs_app
  validated_app
  driver_events_pass client_events_pass config_events_pass error_logs_pass
  validated_pass
  driver_events_fail client_events_fail config_events_fail error_logs_fail
  validated_fail : proj.

Ltac proj_simpl :=
  autorewrite with proj;
  cbn [is_driver is_client is_config is_error_log app
       driver_events client_events config_events error_logs validated
       List.filter omap];
  rewrite ?app_nil_r.

Lemma nonempty_length (path : string) :
  (0 <? String.length path)%nat = true <-> path <> "".
Proof.
  destruct path; cbn; [|done].
  split; [discriminate|]. intros H. by destruct H.
Qed.

Lemma resolves_out w c path :
  resolves w c -> kubeConfigFile w = Some path ->
  (0 <? String.length path)%nat = true ->
  NewOutOfClusterClient w path = Some c.
Proof.
  intros [(p & Hp & _ & Hc)|[[Hp|Hp] _]] Hk Hlen; by simplify_eq.
Qed.

Lemma resolves_in w c :
  resolves w c ->
  kubeConfigFile w = None \/
  (exists path, kubeConfigFile w = Some path /\
                (0 <? String.length path)%nat = false) ->
  NewInClusterClient w = Some c.
Proof.
  intros [(p & Hp & Hne & Hc)|[_ Hc]] Hk; [|done].
  destruct Hk as [Hk|(path & Hk & Hlen)]; simplify_eq.
  apply nonempty_length in Hne. congruence.
Qed.

Lemma find_offending_Forall w ngs :
  list_find (offending w) ngs = None <->
  Forall (fun ng => ValidateNodeGroup w ng = []) ngs.
Proof.
  rewrite list_find_None, !Forall_forall.
  split; intros H ng Hng; specialize (H ng Hng); unfold offending in *.
  - destruct (ValidateNodeGroup w ng); [done|]. by destruct H.
  - rewrite H. intros Hn. by destruct Hn.
Qed.

Lemma find_offending_Exists w ngs :
  Exists (offending w) ngs -> list_find (offending w) ngs <> None.
Proof.
  intros H Hn. apply list_find_None in Hn.
  apply Exists_exists in H as (ng & Hin & Hng).
  by eapply Forall_forall in Hn.
Qed.

(** Closes the cases of [main_cases] that the hypotheses exclude. *)
Ltac level_lia :=
  repeat match goal with
  | H : (_ <? _) = true |- _ => apply Z.ltb_lt in H
  | H : (_ <? _) = false |- _ => apply Z.ltb_ge in H
  | H : (_ >? _) = true |- _ => apply Z.gtb_lt in H
  | H : (_ >? _) = false |- _ => rewrite Z.gtb_ltb in H; apply Z.ltb_ge in H
  end; lia.

(** Brings the hypotheses of a statement about [main] into the case at
    hand; a case they exclude is closed. *)
Ltac use_hyps :=
  try level_lia;
  repeat match goal with
  | H : resolves ?w ?c, Hk : kubeConfigFile ?w = Some ?path,
    Hl : (0 <? String.length ?path)%nat = true |- _ =>
      apply (fun H => resolves_out w c path H Hk Hl) in H
  | H : resolves ?w ?c, Hk : kubeConfigFile ?w = Some ?path,
    Hl : (0 <? String.length ?path)%nat = false |- _ =>
      apply (fun H => resolves_in w c H
               (or_intror (ex_intro _ path (conj Hk Hl)))) in H
  | H : resolves ?w ?c, Hk : kubeConfigFile ?w = None |- _ =>
      apply (fun H => resolves_in w c H (or_introl Hk)) in H
  | H : loads _ _ |- _ => destruct H as (? & ? & ?)
  | H : Forall (fun ng => ValidateNodeGroup _ ng = []) _ |- _ =>
      apply find_offending_Forall in H
  | H : Exists (offending _) _ |- _ => apply find_offending_Exists in H
  end;
  repeat first
    [ match goal with
      | H1 : ?t = _, H2 : ?t = _ |- _ => rewrite H1 in H2
      end
    | progress simplify_eq ].

(** ** The log level gate (lines 31-33) *)

(** C5: a log level outside 0..5 ends the run with the fatal entry of
    line 32 right after flag parsing: no client constructor is called, and
    the configuration file is neither opened nor decoded. *)
Theorem bad_loglevel_stops_before_client_and_config (w : World) :
  loglevel w < 0 \/ 5 < loglevel w ->
  main w =
    ([EvParse;
      EvLog FatalLevel []
        "Invalid log level %v provided. Must be between 0 (Critical) and 5 (Debug)"
        [AInt (loglevel w)]],
     Exit 1) /\
  client_events (trace (main w)) = [] /\
  config_events (trace (main w)) = [].
Proof.
  intros Hlevel.
  assert ((loglevel w <? 0) || (loglevel w >? 5) = true) as Hgate.
  { apply orb_true_iff. rewrite Z.ltb_lt, Z.gtb_lt. lia. }
  unfold main. rewrite Hgate. done.
Qed.

Lemma bad_loglevel_stops_before_client_and_config_witness :
  let w := world 7 (Some "/etc/kube/config") false [nodegroup "pool-a" false 1 3] in
  main w =
    ([EvParse;
      EvLog FatalLevel []
        "Invalid log level %v provided. Must be between 0 (Critical) and 5 (Debug)"
        [AInt 7]],
     Exit 1) /\
  client_events (trace (main w)) = [] /\
  config_events (trace (main w)) = [].
Proof.
  intros w.
  apply (bad_loglevel_stops_before_client_and_config w).
  right. cbn. lia.
Defined.

(** ** Credential resolution (lines 38-45) *)

(** C6: once the log level is accepted, exactly one client constructor is
    called, and which one depends on the kubeconfig path alone: the
    out-of-cluster constructor, with that path, when the path is set and not
    empty, the in-cluster constructor when it is nil or empty. *)
Theorem client_mode_chosen_by_kubeconfig_path (w : World) :
  0 <= loglevel w <= 5 ->
  (forall path, kubeConfigFile w = Some path -> path <> "" ->
     client_events (trace (main w)) = [EvNewOutOfClusterClient path]) /\
  (kubeConfigFile w = None \/ kubeConfigFile w = Some "" ->
     client_events (trace (main w)) = [EvNewInClusterClient]).
Proof.
  intros Hlevel. split.
  - intros p Hp Hne. apply nonempty_length in Hne.
    main_cases w; try level_lia; simplify_eq; try congruence;
      main_run; by proj_simpl.
  - intros Hp.
    main_cases w; try level_lia; (destruct Hp as [Hp|Hp]; simplify_eq);
      main_run; by proj_simpl.
Qed.

Lemma client_mode_chosen_by_kubeconfig_path_witness :
  let w := world 4 (Some "/etc/kube/config") false [nodegroup "pool-a" false 1 3] in
  (forall path, kubeConfigFile w = Some path -> path <> "" ->
     client_events (trace (main w)) = [EvNewOutOfClusterClient path]) /\
  (kubeConfigFile w = None \/ kubeConfigFile w = Some "" ->
     client_events (trace (main w)) = [EvNewInClusterClient]).
Proof.
  intros w.
  apply (client_mode_chosen_by_kubeconfig_path w).
  cbn. lia.
Defined.

(** ** Validation and the start of the driver (lines 58-76, 94-95) *)

(** C3: when every node group of the decoded sequence validates without
    error, the run reaches the driver, and the options given to
    [controller.NewController] carry the decoded sequence as it is. *)
Theorem valid_sequence_reaches_driver_unmodified
  (w : World) (c : kubernetes.Interface)
  (ngs : list controller.NodeGroupOptions) :
  0 <= loglevel w <= 5 ->
  resolves w c ->
  loads w ngs ->
  Forall (fun ng => ValidateNodeGroup w ng = []) ngs ->
  result (main w) = Ok tt /\
  validated (trace (main w)) = ngs /\
  driver_events (trace (main w)) =
    [EvNewController
       {| controller.ScanInterval := scanInterval w;
          controller.K8SClient := c;
          controller.NodeGroups := ngs;
          controller.DryMode := drymode w |};
     EvRunForever true].
Proof.
  intros Hlevel Hclient Hload Hpass.
  main_cases w; use_hyps; main_run; by proj_simpl.
Qed.

Lemma valid_sequence_reaches_driver_unmodified_witness :
  let ngs := [nodegroup "pool-a" false 1 3; nodegroup "pool-b" true 0 10] in
  let w := world 4 None false ngs in
  result (main w) = Ok tt /\
  validated (trace (main w)) = ngs /\
  driver_events (trace (main w)) =
    [EvNewController
       {| controller.ScanInterval := scanInterval w;
          controller.K8SClient := 0%nat;
          controller.NodeGroups := ngs;
          controller.DryMode := drymode w |};
     EvRunForever true].
Proof.
  intros ngs w.
  apply (valid_sequence_reaches_driver_unmodified w 0%nat ngs).
  - cbn. lia.
  - right. split; [by left|done].
  - by exists "nodegroups.yaml".
  - repeat constructor.
Defined.

(** C2: when some node group of the decoded sequence has a validation
    error, the run ends with exit status 1 and neither
    [controller.NewController] nor [RunForever] is called. *)
Theorem offending_group_aborts_before_driver
  (w : World) (ngs : list controller.NodeGroupOptions) :
  loads w ngs ->
  Exists (offending w) ngs ->
  result (main w) = Exit 1 /\
  driver_events (trace (main w)) = [].
Proof.
  intros Hload Hbad.
  main_cases w; use_hyps; main_run; by proj_simpl.
Qed.

Lemma offending_group_aborts_before_driver_witness :
  let ngs := [nodegroup "pool-a" false 1 3; nodegroup "pool-b" false 3 1] in
  let w := world 4 None false ngs in
  result (main w) = Exit 1 /\
  driver_events (trace (main w)) = [].
Proof.
  intros ngs w.
  apply (offending_group_aborts_before_driver w ngs).
  - by exists "nodegroups.yaml".
  - apply Exists_cons_tl, Exists_cons_hd. by vm_compute.
Defined.

(** ** Loading the configuration (lines 48-55) *)

(** C8: when the configuration file does not open, or opens and does not
    decode, the run ends with exit status 1; no call that loads the
    configuration is made twice, no node group of a partly decoded sequence
    is handed to the validator, and the driver is not started. *)
Theorem unreadable_config_aborts (w : World) :
  (exists err, Open w (nodegroupConfigFile w) = inr err) \/
  (exists f ngs err, Open w (nodegroupConfigFile w) = inl f /\
                     UnmarshalNodeGroupOptions w f = (ngs, Some err)) ->
  result (main w) = Exit 1 /\
  NoDup (config_events (trace (main w))) /\
  validated (trace (main w)) = [] /\
  driver_events (trace (main w)) = [].
Proof.
  intros [(e & He)|(f0 & ngs0 & e & Ho & Hd)];
    main_cases w; use_hyps; main_run; proj_simpl;
    (split_and!; [done| |done|done]);
    repeat (apply NoDup_cons; split;
            [rewrite ?elem_of_cons, elem_of_nil; intros Hin;
             decompose [or] Hin; done|]);
    apply NoDup_nil_2.
Qed.

Lemma unreadable_config_aborts_witness :
  let w := world_undecodable [nodegroup "pool-a" false 1 3; nodegroup "" false 1 3] in
  result (main w) = Exit 1 /\
  NoDup (config_events (trace (main w))) /\
  validated (trace (main w)) = [] /\
  driver_events (trace (main w)) = [].
Proof.
  intros w.
  apply (unreadable_config_aborts w).
  right. by exists "nodegroups.yaml", [nodegroup "pool-a" false 1 3], "yaml: line 7".
Defined.

(** ** The call of the driver (lines 94-95) *)

Lemma driver_events_elem_of (e : Event) (tr : list Event) :
  e ∈ tr -> is_driver e = true -> In e (driver_events tr).
Proof.
  intros Hin He. apply List.filter_In. split; [|done].
  by apply list_elem_of_In.
Qed.

(** C10: whenever [RunForever] is called, its argument is [true]. *)
Theorem driver_runs_forever (w : World) (b : bool) :
  EvRunForever b ∈ trace (main w) -> b = true.
Proof.
  intros Hin. apply driver_events_elem_of in Hin; [|done].
  revert Hin.
  main_cases w; main_run; proj_simpl; cbn [In]; intros Hin;
    decompose [or] Hin; by simplify_eq.
Qed.

Lemma driver_runs_forever_witness :
  EvRunForever true ∈ trace (main (world 4 None false [nodegroup "pool-a" false 1 3]))
  /\ true = true.
Proof.
  assert (EvRunForever true
            ∈ trace (main (world 4 None false [nodegroup "pool-a" false 1 3])))
    as Hin.
  { apply list_elem_of_In. vm_compute. tauto. }
  split; [exact Hin|].
  exact (driver_runs_forever _ true Hin).
Defined.

(** ** Dry mode (lines 68 and 75) *)

Lemma registered_in_pass w ngs ng :
  ng ∈ ngs ->
  registered ng (controller.NG_DryMode ng || drymode w) ∈ ngs ≫= pass_events w.
Proof.
  intros Hin. apply list_elem_of_bind. exists ng. split; [|done].
  unfold pass_events. rewrite !elem_of_cons. auto.
Qed.

(** C9: in a run that starts the driver, every node group given to it was
    registered (line 68) with the disjunction of its own dry mode and the
    global flag, which is [true] whenever the global flag is set, whatever
    the group's own value; the options carry the global flag. *)
Theorem global_drymode_overrides (w : World) (opts : controller.Opts) :
  EvNewController opts ∈ trace (main w) ->
  controller.DryMode opts = drymode w /\
  forall ng, ng ∈ controller.NodeGroups opts ->
    registered ng (controller.NG_DryMode ng || drymode w) ∈ trace (main w) /\
    (drymode w = true -> registered ng true ∈ trace (main w)).
Proof.
  intros Hin.
  assert (forall ng,
            registered ng (controller.NG_DryMode ng || drymode w) ∈ trace (main w) ->
            registered ng (controller.NG_DryMode ng || drymode w) ∈ trace (main w) /\
            (drymode w = true -> registered ng true ∈ trace (main w))) as Hdry.
  { intros ng Hng. split; [done|]. intros Hglobal.
    by rewrite Hglobal, orb_true_r in Hng. }
  apply driver_events_elem_of in Hin; [|done].
  revert Hin Hdry.
  main_cases w; main_run; proj_simpl; cbn [In]; intros Hin Hdry;
    decompose [or] Hin; simplify_eq; try contradiction.
  all: split; [done|]; cbn [controller.NodeGroups]; intros g Hg.
  all: apply Hdry; rewrite !elem_of_cons, elem_of_app.
  all: do 7 right; left; by apply registered_in_pass.
Qed.

Lemma global_drymode_overrides_witness :
  let ngs := [nodegroup "pool-a" false 1 3] in
  let w := world 4 None true ngs in
  let opts := {| controller.ScanInterval := scanInterval w;
                 controller.K8SClient := 0%nat;
                 controller.NodeGroups := ngs;
                 controller.DryMode := true |} in
  EvNewController opts ∈ trace (main w) /\
  controller.DryMode opts = drymode w /\
  forall ng, ng ∈ controller.NodeGroups opts ->
    registered ng (controller.NG_DryMode ng || drymode w) ∈ trace (main w) /\
    (drymode w = true -> registered ng true ∈ trace (main w)).
Proof.
  intros ngs w opts.
  assert (EvNewController opts ∈ trace (main w)) as Hin.
  { apply list_elem_of_In. vm_compute. tauto. }
  split; [exact Hin|].
  exact (global_drymode_overrides w opts Hin).
Defined.

(** Refutes a decidable proposition about concrete data by evaluation. *)
Ltac decide_not :=
  lazymatch goal with
  | |- ~ ?P => apply (bool_decide_eq_false_1 P); by vm_compute
  end.

(** ** What the validation loop reports (lines 58-69) *)

Lemma find_offending_take w ngs i ng :
  list_find (offending w) ngs = Some (i, ng) ->
  take i ngs ++ [ng] = take (S i) ngs /\ Exists (offending w) ngs.
Proof.
  intros (Hi & Hng & _)%list_find_Some. split.
  - symmetry. by apply take_S_r.
  - apply Exists_exists. exists ng. split; [|done].
    by eapply list_elem_of_lookup_2.
Qed.

(** C1, as the code has it: when some node group of the decoded sequence
    has a validation error, the node groups are handed to the validator in
    order up to and including the first offending one; the error-level
    entries of the run are that group's header followed by one entry per
    error of that group; the run then ends with exit status 1.  Later node
    groups are neither validated nor reported. *)
Theorem first_offender_reported_then_exit
  (w : World) (c : kubernetes.Interface)
  (ngs : list controller.NodeGroupOptions) (i : nat)
  (ng : controller.NodeGroupOptions) :
  0 <= loglevel w <= 5 ->
  resolves w c ->
  loads w ngs ->
  list_find (offending w) ngs = Some (i, ng) ->
  result (main w) = Exit 1 /\
  validated (trace (main w)) = take (S i) ngs /\
  error_logs (trace (main w)) =
    fail_header ng :: map failed_check (ValidateNodeGroup w ng).
Proof.
  intros Hlevel Hclient Hload Hfirst.
  main_cases w; use_hyps; main_run; proj_simpl.
  all: match goal with
       | H : list_find _ _ = Some _ |- _ =>
           apply find_offending_take in H as [-> _]
       end; done.
Qed.

Lemma first_offender_reported_then_exit_witness :
  let bad := nodegroup "pool-b" false 3 1 in
  let ngs := [nodegroup "pool-a" false 1 3; bad; nodegroup "" false 1 3] in
  let w := world 4 None false ngs in
  result (main w) = Exit 1 /\
  validated (trace (main w)) = take 2 ngs /\
  error_logs (trace (main w)) =
    fail_header bad :: map failed_check (ValidateNodeGroup w bad).
Proof.
  intros bad ngs w.
  apply (first_offender_reported_then_exit w 0%nat ngs 1%nat bad).
  - cbn. lia.
  - right. split; [by left|done].
  - by exists "nodegroups.yaml".
  - by vm_compute.
Defined.

(** C1, as stated, fails: with two offending node groups, neither the
    header nor the error of the second one is in the trace. *)
Lemma later_offenders_not_reported :
  let ngs := [nodegroup "pool-a" false 1 3; nodegroup "pool-b" false 3 1;
              nodegroup "" false 1 3] in
  let w := world 4 None false ngs in
  loads w ngs /\
  length (filter (offending w) ngs) = 2%nat /\
  ~ (forall ng, ng ∈ ngs -> offending w ng ->
       fail_header ng ∈ trace (main w) /\
       forall err, err ∈ ValidateNodeGroup w ng ->
                   failed_check err ∈ trace (main w)).
Proof.
  intros ngs w. split_and!.
  - by exists "nodegroups.yaml".
  - by vm_compute.
  - intros Hall.
    destruct (Hall (nodegroup "" false 1 3)) as [Hheader _].
    + unfold ngs. rewrite !elem_of_cons. auto.
    + by vm_compute.
    + assert (fail_header (nodegroup "" false 1 3) ∉ trace (main w)) as Hnot
        by decide_not.
      done.
Qed.

(** C7, as the code has it: the loop looks at one node group at a time.
    For a decoded sequence in which two entries carry the same name, the
    run ends with exit status 1 exactly when some entry has a validation
    error of its own; when none has, the driver is started with the
    sequence, duplicates included. *)
Theorem duplicate_names_not_checked
  (w : World) (c : kubernetes.Interface)
  (ngs : list controller.NodeGroupOptions) :
  0 <= loglevel w <= 5 ->
  resolves w c ->
  loads w ngs ->
  has_duplicate_names ngs ->
  (Exists (offending w) ngs <-> result (main w) = Exit 1) /\
  (~ Exists (offending w) ngs ->
   error_logs (trace (main w)) = [] /\
   driver_events (trace (main w)) =
     [EvNewController
        {| controller.ScanInterval := scanInterval w;
           controller.K8SClient := c;
           controller.NodeGroups := ngs;
           controller.DryMode := drymode w |};
      EvRunForever true]).
Proof.
  intros Hlevel Hclient Hload _.
  main_cases w; use_hyps; main_run; proj_simpl.
  all: try (match goal with
            | H : list_find _ _ = Some _ |- _ =>
                apply find_offending_take in H as [_ Hbad]
            end; split; [done|by intros []]).
  all: split; [|done].
  all: split; [|done].
  all: by intros Hbad%find_offending_Exists.
Qed.

Lemma duplicate_names_not_checked_witness :
  let ngs := [nodegroup "pool-a" false 1 3; nodegroup "pool-a" true 2 5] in
  let w := world 4 None false ngs in
  (Exists (offending w) ngs <-> result (main w) = Exit 1) /\
  (~ Exists (offending w) ngs ->
   error_logs (trace (main w)) = [] /\
   driver_events (trace (main w)) =
     [EvNewController
        {| controller.ScanInterval := scanInterval w;
           controller.K8SClient := 0%nat;
           controller.NodeGroups := ngs;
           controller.DryMode := drymode w |};
      EvRunForever true]).
Proof.
  intros ngs w.
  apply (duplicate_names_not_checked w 0%nat ngs).
  - cbn. lia.
  - right. split; [by left|done].
  - by exists "nodegroups.yaml".
  - unfold has_duplicate_names. decide_not.
Defined.

(** C7, as stated, fails: two node groups with the same name, each valid on
    its own, pass validation without an error entry and are both handed to
    the driver. *)
Lemma duplicate_names_reach_driver :
  let ngs := [nodegroup "pool-a" false 1 3; nodegroup "pool-a" true 2 5] in
  let w := world 4 None false ngs in
  loads w ngs /\
  has_duplicate_names ngs /\
  result (main w) = Ok tt /\
  error_logs (trace (main w)) = [] /\
  driver_events (trace (main w)) =
    [EvNewController
       {| controller.ScanInterval := scanInterval w;
          controller.K8SClient := 0%nat;
          controller.NodeGroups := ngs;
          controller.DryMode := false |};
     EvRunForever true].
Proof.
  intros ngs w. split_and!.
  - by exists "nodegroups.yaml".
  - unfold has_duplicate_names. decide_not.
  - by vm_compute.
  - by vm_compute.
  - by vm_compute.
Qed.

(** ** The signal watcher *)

Lemma run_snoc r acts a : run r (acts ++ [a]) = step (run r acts) a.
Proof. unfold run. by rewrite fold_left_app. Qed.

Lemma deliveries_snoc acts a :
  deliveries (acts ++ [a]) =
  deliveries acts ++
  match a with
  | Deliver sig => if bool_decide (sig ∈ notified) then [sig] else []
  | RunWatcher => []
  end.
Proof.
  unfold deliveries. rewrite omap_app. f_equal.
  destruct a as [sig|]; [|done]. cbn. by destruct (bool_decide (sig ∈ notified)).
Qed.

Lemma head_app_Some {A} (l l' : list A) x :
  head l = Some x -> head (l ++ l') = Some x.
Proof. by destruct l. Qed.

Lemma watcher_inv_started : watcher_inv [] started.
Proof. unfold watcher_inv. cbn. split_and!; try done. lia. Qed.

(** Opens the invariant of a runtime, one case per place of the watcher. *)
Ltac inv_open r H :=
  destruct r as [[sb sc scl] st pc lg cl pn];
  unfold watcher_inv, has_returned in *;
  cbn [signalChan stopChan watcher logged closes panicked buf cap closed] in *;
  destruct H as (-> & -> & Hlen & -> & -> & Hw);
  destruct pc as [|s0| | |];
  [destruct Hw as [Hbuf Hlog]
  |destruct Hw as [Hhead Hlog]
  |destruct Hw as (s0 & Hhead & Hlog)
  |destruct Hw as (s0 & Hhead & Hlog)
  |destruct Hw as (s0 & Hhead & Hlog)];
  subst.

Lemma watcher_inv_deliver acts r sig :
  watcher_inv acts r -> watcher_inv (acts ++ [Deliver sig]) (deliver sig r).
Proof.
  intros H. unfold deliver.
  destruct (bool_decide (sig ∈ notified)) eqn:Hsig.
  - inv_open r H; rewrite deliveries_snoc, Hsig; unfold send_nonblocking;
      cbn [signalChan stopChan watcher logged closes panicked buf cap closed].
    1: destruct (deliveries acts) as [|s q]; cbn;
         (split_and!; try done; lia).
    all: destruct sb as [|s [|s' q]]; cbn in Hlen; [| |lia]; cbn;
      (split_and!; try done; try lia; eauto using head_app_Some).
  - unfold watcher_inv in *. rewrite deliveries_snoc, Hsig, app_nil_r. done.
Qed.

Lemma watcher_inv_run_watcher acts r :
  watcher_inv acts r -> watcher_inv (acts ++ [RunWatcher]) (run_watcher r).
Proof.
  intros H. unfold run_watcher.
  inv_open r H; rewrite deliveries_snoc, app_nil_r;
    cbn [signalChan stopChan watcher logged closes panicked buf cap closed].
  1: destruct (deliveries acts) as [|s q]; cbn;
       (split_and!; try done; rewrite ?take_0; cbn; lia).
  all: cbn; split_and!; try done; by exists s0.
Qed.

Lemma watcher_inv_step acts r a :
  watcher_inv acts r -> watcher_inv (acts ++ [a]) (step r a).
Proof.
  intros Hinv. unfold step.
  pose proof Hinv as [Hp _]. rewrite Hp.
  destruct a; [apply watcher_inv_deliver|apply watcher_inv_run_watcher]; done.
Qed.

Lemma watcher_inv_run acts : watcher_inv acts (run started acts).
Proof.
  induction acts as [|a acts IH] using rev_ind; [apply watcher_inv_started|].
  rewrite run_snoc. by apply watcher_inv_step.
Qed.





(** * Further properties of [main] and of the watcher *)

Lemma resolves_intro_out w c path :
  kubeConfigFile w = Some path -> (0 <? String.length path)%nat = true ->
  NewOutOfClusterClient w path = Some c -> resolves w c.
Proof.
  intros Hk Hl Hc. left. exists path. by rewrite <- nonempty_length.
Qed.

Lemma empty_length (path : string) :
  (0 <? String.length path)%nat = false -> path = "".
Proof. by destruct path. Qed.

Lemma resolves_intro_in w c :
  kubeConfigFile w = None \/
  (exists path, kubeConfigFile w = Some path /\
                (0 <? String.length path)%nat = false) ->
  NewInClusterClient w = Some c -> resolves w c.
Proof.
  intros Hk Hc. right. split; [|done].
  destruct Hk as [Hk|(path & Hk & Hl)]; [by left|].
  right. by rewrite Hk, (empty_length path Hl).
Qed.


Lemma resolution_fails_out w path :
  resolution_fails w -> kubeConfigFile w = Some path ->
  (0 <? String.length path)%nat = true ->
  NewOutOfClusterClient w path = None.
Proof.
  intros [(p & Hp & _ & Hc)|[[Hp|Hp] _]] Hk Hlen; by simplify_eq.
Qed.

Lemma resolution_fails_in w :
  resolution_fails w ->
  kubeConfigFile w = None \/
  (exists path, kubeConfigFile w = Some path /\
                (0 <? String.length path)%nat = false) ->
  NewInClusterClient w = None.
Proof.
  intros [(p & Hp & Hne & Hc)|[_ Hc]] Hk; [|done].
  destruct Hk as [Hk|(path & Hk & Hlen)]; simplify_eq.
  apply nonempty_length in Hne. congruence.
Qed.

(** ** Projections of lists built by the loop *)

Lemma filter_map_nil {A B} (f : B -> bool) (g : A -> B) (l : list A) :
  (forall x, f (g x) = false) -> List.filter f (map g l) = [].
Proof.
  intros Hf. induction l as [|x l IH]; [done|]. cbn. by rewrite Hf.
Qed.

Lemma filter_bind_nil {A B} (f : B -> bool) (g : A -> list B) (l : list A) :
  (forall x, List.filter f (g x) = []) -> List.filter f (l ≫= g) = [].
Proof.
  intros Hf. induction l as [|x l IH]; [done|].
  by rewrite bind_cons, List.filter_app, Hf, IH.
Qed.

Lemma omap_map_nil {A B C} (f : B -> option C) (g : A -> B) (l : list A) :
  (forall x, f (g x) = None) -> omap f (map g l) = [].
Proof.
  intros Hf. induction l as [|x l IH]; [done|]. cbn. by rewrite Hf.
Qed.

Lemma omap_bind_nil {A B C} (f : B -> option C) (g : A -> list B) (l : list A) :
  (forall x, omap f (g x) = []) -> omap f (l ≫= g) = [].
Proof.
  intros Hf. induction l as [|x l IH]; [done|].
  by rewrite bind_cons, omap_app, Hf, IH.
Qed.

Lemma coordinator_events_cons e t :
  coordinator_events (e :: t) =
  (if is_coordinator e then [e] else []) ++ coordinator_events t.
Proof. unfold coordinator_events. cbn. by destruct (is_coordinator e). Qed.

Lemma coordinator_events_app t1 t2 :
  coordinator_events (t1 ++ t2) = coordinator_events t1 ++ coordinator_events t2.
Proof. apply List.filter_app. Qed.

Lemma coordinator_events_pass w ngs :
  coordinator_events (ngs ≫= pass_events w) = [].
Proof. by apply filter_bind_nil. Qed.

Lemma coordinator_events_fail w ng : coordinator_events (fail_events w ng) = [].
Proof.
  unfold fail_events, coordinator_events. cbn.
  by rewrite List.filter_app, filter_map_nil.
Qed.

Lemma set_levels_cons e t :
  set_levels (e :: t) =
  match e with EvSetLevel l => [l] | _ => [] end ++ set_levels t.
Proof. by destruct e. Qed.

Lemma set_levels_app t1 t2 :
  set_levels (t1 ++ t2) = set_levels t1 ++ set_levels t2.
Proof. apply omap_app. Qed.

Lemma set_levels_pass w ngs : set_levels (ngs ≫= pass_events w) = [].
Proof. by apply omap_bind_nil. Qed.

Lemma set_levels_fail w ng : set_levels (fail_events w ng) = [].
Proof.
  unfold fail_events, set_levels. cbn. by rewrite omap_app, omap_map_nil.
Qed.

Lemma reported_errors_cons e t :
  reported_errors (e :: t) =
  match e with
  | EvLog ErrorLevel [WithError err] _ _ => [err]
  | _ => []
  end ++ reported_errors t.
Proof.
  unfold reported_errors. cbn.
  by destruct e as [|[] [|[] []]| | | | | | | | | | |].
Qed.

Lemma reported_errors_app t1 t2 :
  reported_errors (t1 ++ t2) = reported_errors t1 ++ reported_errors t2.
Proof. apply omap_app. Qed.

Lemma reported_errors_pass w ngs : reported_errors (ngs ≫= pass_events w) = [].
Proof. by apply omap_bind_nil. Qed.

Lemma reported_errors_failed_check errs :
  reported_errors (map failed_check errs) = errs.
Proof.
  induction errs as [|e errs IH]; [done|].
  change (map failed_check (e :: errs))
    with (failed_check e :: map failed_check errs).
  by rewrite reported_errors_cons, IH.
Qed.

Lemma reported_errors_fail w ng :
  reported_errors (fail_events w ng) = ValidateNodeGroup w ng.
Proof.
  unfold fail_events. rewrite !reported_errors_cons, reported_errors_app.
  rewrite reported_errors_failed_check. cbn. by rewrite app_nil_r.
Qed.

Lemma passed_cons e t :
  passed (e :: t) =
  match passed_name e with Some name => [name] | None => [] end ++ passed t.
Proof. unfold passed. cbn. by destruct (passed_name e). Qed.

Lemma passed_app t1 t2 : passed (t1 ++ t2) = passed t1 ++ passed t2.
Proof. apply omap_app. Qed.

Lemma passed_pass w ngs :
  passed (ngs ≫= pass_events w) = controller.Name <$> ngs.
Proof.
  induction ngs as [|ng ngs IH]; [done|].
  rewrite bind_cons, passed_app, IH. done.
Qed.

Lemma passed_fail w ng : passed (fail_events w ng) = [].
Proof.
  unfold fail_events, passed. cbn. by rewrite omap_app, omap_map_nil.
Qed.

Lemma stages_cons e t :
  stages (e :: t) = match stage e with Some n => [n] | None => [] end ++ stages t.
Proof. unfold stages. cbn. by destruct (stage e). Qed.

Lemma stages_app t1 t2 : stages (t1 ++ t2) = stages t1 ++ stages t2.
Proof. apply omap_app. Qed.

Lemma stages_pass w ngs :
  stages (ngs ≫= pass_events w) = replicate (length ngs) 5%nat.
Proof.
  induction ngs as [|ng ngs IH]; [done|].
  rewrite bind_cons, stages_app, IH. done.
Qed.

Lemma stages_fail w ng : stages (fail_events w ng) = [5%nat].
Proof.
  unfold fail_events, stages. cbn. by rewrite omap_app, omap_map_nil.
Qed.

Create Rewrite HintDb proj_more.
#[global] Hint Rewrite
  coordinator_events_cons set_levels_cons reported_errors_cons stages_cons
  coordinator_events_app set_levels_app reported_errors_app passed_app
  stages_app
  coordinator_events_pass set_levels_pass reported_errors_pass passed_pass
  stages_pass
  coordinator_events_fail set_levels_fail reported_errors_fail passed_fail
  stages_fail : proj_more.

Ltac proj_more :=
  proj_simpl;
  autorewrite with proj_more;
  cbn [is_coordinator stage app coordinator_events set_levels reported_errors
       stages List.filter omap];
  rewrite ?app_nil_r.

(** Like [use_hyps], for a failing credential resolution as well. *)
Ltac use_hyps_more :=
  try level_lia;
  repeat match goal with
  | H : resolution_fails ?w, Hk : kubeConfigFile ?w = Some ?path,
    Hl : (0 <? String.length ?path)%nat = true |- _ =>
      apply (fun H => resolution_fails_out w path H Hk Hl) in H
  | H : resolution_fails ?w, Hk : kubeConfigFile ?w = Some ?path,
    Hl : (0 <? String.length ?path)%nat = false |- _ =>
      apply (fun H => resolution_fails_in w H
               (or_intror (ex_intro _ path (conj Hk Hl)))) in H
  | H : resolution_fails ?w, Hk : kubeConfigFile ?w = None |- _ =>
      apply (fun H => resolution_fails_in w H (or_introl Hk)) in H
  end;
  use_hyps.

(** ** The launch (lines 84-95) *)

(** X3: a run of [main] that returns ends with five calls, in this order:
    SIGINT and SIGTERM are routed to the signal channel, the watcher is
    started, the metrics endpoint is started on the address flag, the
    controller is built and [RunForever] is called; none of these calls is
    made earlier in the run. *)
Theorem returning_run_ends_with_launch (w : World) :
  result (main w) = Ok tt ->
  exists pre opts,
    trace (main w) = pre ++ launch w opts /\
    coordinator_events pre = [].
Proof.
  main_cases w; main_run; try discriminate.
  all: intros _; unfold launch; rewrite !app_comm_cons.
  all: eexists _, _; split; [reflexivity|]; by proj_more.
Qed.

Lemma returning_run_ends_with_launch_witness :
  let w := world 4 None false [nodegroup "pool-a" false 1 3] in
  exists pre opts,
    trace (main w) = pre ++ launch w opts /\
    coordinator_events pre = [].
Proof.
  intros w.
  apply (returning_run_ends_with_launch w).
  reflexivity.
Defined.

(** ** How a run ends *)

Lemma last_fail_events w ng pre :
  last (pre ++ fail_events w ng) =
  Some (fatal_entry w ng (length (ValidateNodeGroup w ng))).
Proof.
  unfold fail_events. rewrite !app_comm_cons, !app_assoc. apply last_snoc.
Qed.

(** ** The log level (lines 31-34) *)

(** X6: [log.SetLevel] is called once, with the level flag, when the flag
    is within 0..5 (both bounds included), and not at all otherwise. *)
Theorem set_level_called_iff_in_range (w : World) :
  set_levels (trace (main w)) =
  if bool_decide (0 <= loglevel w <= 5) then [loglevel w] else [].
Proof.
  case_bool_decide as Hlevel;
    main_cases w; try level_lia; main_run; by proj_more.
Qed.

(** ** What a failed validation writes (lines 60-66) *)

(** X7: when validation stops at a node group, the errors written before
    the exit are the validator's errors for that group, in its order; the
    run's last call is the fatal entry, which names the group and the
    configuration file flag and counts as many problems as errors were
    written, at least one. *)
Theorem fatal_entry_counts_the_written_errors
  (w : World) (c : kubernetes.Interface)
  (ngs : list controller.NodeGroupOptions) (i : nat)
  (ng : controller.NodeGroupOptions) :
  0 <= loglevel w <= 5 ->
  resolves w c ->
  loads w ngs ->
  list_find (offending w) ngs = Some (i, ng) ->
  reported_errors (trace (main w)) = ValidateNodeGroup w ng /\
  last (trace (main w)) =
    Some (fatal_entry w ng (length (reported_errors (trace (main w))))) /\
  (0 < length (reported_errors (trace (main w))))%nat.
Proof.
  intros Hlevel Hclient Hload Hfirst.
  assert (0 < length (ValidateNodeGroup w ng))%nat as Hpos.
  { apply list_find_Some in Hfirst as (_ & Hbad & _). unfold offending in Hbad.
    destruct (ValidateNodeGroup w ng); [done|cbn; lia]. }
  main_cases w; use_hyps; main_run; proj_more.
  all: by rewrite ?app_comm_cons, ?last_fail_events.
Qed.

Lemma fatal_entry_counts_the_written_errors_witness :
  let bad := nodegroup "" false 3 1 in
  let ngs := [nodegroup "pool-a" false 1 3; bad] in
  let w := world 4 None false ngs in
  reported_errors (trace (main w)) = ValidateNodeGroup w bad /\
  last (trace (main w)) =
    Some (fatal_entry w bad (length (reported_errors (trace (main w))))) /\
  (0 < length (reported_errors (trace (main w))))%nat.
Proof.
  intros bad ngs w.
  apply (fatal_entry_counts_the_written_errors w 0%nat ngs 1%nat bad).
  - cbn. lia.
  - right. split; [by left|done].
  - by exists "nodegroups.yaml".
  - by vm_compute.
Defined.

(** ** What the loop reports as passing (line 67) *)

(** X8: the node groups reported as passing are, in order, those that come
    before the first offending one, or all of them when there is none. *)
Theorem passed_groups_precede_first_offender
  (w : World) (c : kubernetes.Interface)
  (ngs : list controller.NodeGroupOptions) :
  0 <= loglevel w <= 5 ->
  resolves w c ->
  loads w ngs ->
  passed (trace (main w)) =
  controller.Name <$>
    match list_find (offending w) ngs with
    | Some (i, _) => take i ngs
    | None => ngs
    end.
Proof.
  intros Hlevel Hclient Hload.
  main_cases w; use_hyps; main_run.
  all: rewrite !passed_cons, passed_app; cbn [passed_name app].
  all: by rewrite ?passed_pass, ?passed_fail, ?app_nil_r.
Qed.

Lemma passed_groups_precede_first_offender_witness :
  let ngs := [nodegroup "pool-a" false 1 3; nodegroup "pool-b" false 3 1;
              nodegroup "pool-c" false 1 3] in
  let w := world 4 None false ngs in
  passed (trace (main w)) =
  controller.Name <$>
    match list_find (offending w) ngs with
    | Some (i, _) => take i ngs
    | None => ngs
    end.
Proof.
  intros ngs w.
  apply (passed_groups_precede_first_offender w 0%nat ngs).
  - cbn. lia.
  - right. split; [by left|done].
  - by exists "nodegroups.yaml".
Defined.

(** ** Loading the configuration (lines 48-52) *)

(** X12: once a client handle is there, the file named by the node groups
    flag is opened once; the decoder is called once, on the file that was
    opened, and not at all when the file did not open. *)
Theorem config_file_opened_then_decoded
  (w : World) (c : kubernetes.Interface) :
  0 <= loglevel w <= 5 ->
  resolves w c ->
  config_events (trace (main w)) =
  EvOpen (nodegroupConfigFile w) ::
  match Open w (nodegroupConfigFile w) with
  | inl f => [EvUnmarshal f]
  | inr _ => []
  end.
Proof.
  intros Hlevel Hclient.
  main_cases w; use_hyps; main_run; by proj_simpl.
Qed.

Lemma config_file_opened_then_decoded_witness :
  let w := world 4 (Some "/etc/kube/config") false [] in
  config_events (trace (main w)) =
  EvOpen (nodegroupConfigFile w) ::
  match Open w (nodegroupConfigFile w) with
  | inl f => [EvUnmarshal f]
  | inr _ => []
  end.
Proof.
  intros w.
  apply (config_file_opened_then_decoded w 1%nat).
  - cbn. lia.
  - left. by exists "/etc/kube/config".
Defined.

(** ** The order of the calls *)

Lemma sorted_stages_tail (n : nat) (l : list nat) :
  StronglySorted le l -> Forall (le 5) l ->
  StronglySorted le (0 :: 1 :: 2 :: 3 :: 4 :: replicate n 5 ++ l)%nat.
Proof.
  intros Hsorted Hfive.
  assert (Forall (le 5) (replicate n 5 ++ l))%nat as Hall.
  { induction n as [|n IH]; [done|]. cbn. apply Forall_cons. split; [lia|done]. }
  assert (StronglySorted le (replicate n 5 ++ l))%nat as Htail.
  { induction n as [|n IH]; [done|]. cbn in *.
    apply Forall_cons in Hall as [_ Hall].
    apply SSorted_cons; [by apply IH|done]. }
  repeat (apply SSorted_cons;
          [|repeat (apply Forall_cons; split; [lia|]);
            eapply Forall_impl; [exact Hall|cbn; lia]]).
  done.
Qed.

(** X11: in every run the calls follow the order of the text: flag
    parsing, the log level, the client constructor, the opening and the
    decoding of the file, the validator calls, the signal routing, the
    watcher, the metrics endpoint, the controller, [RunForever].  No call
    of an earlier stage comes after a call of a later one. *)
Theorem calls_follow_stage_order (w : World) :
  StronglySorted le (stages (trace (main w))).
Proof.
  main_cases w; main_run; proj_more.
  all: try (apply (sorted_stages_tail _ [5; 6; 7; 8; 9; 10]%nat) ||
            apply (sorted_stages_tail _ [6; 7; 8; 9; 10]%nat) ||
            apply (sorted_stages_tail _ [5]%nat)).
  all: repeat first
         [ apply SSorted_nil
         | apply SSorted_cons
         | apply List.Forall_nil
         | apply List.Forall_cons; [lia|] ].
Qed.

(** ** The channels *)

Lemma signalChan_not_closed acts :
  closed (signalChan (run started acts)) = false.
Proof.
  induction acts as [|a acts IH] using rev_ind; [done|].
  rewrite run_snoc. unfold step.
  destruct (panicked (run started acts)); [done|].
  destruct a as [sig|].
  - unfold deliver, send_nonblocking.
    destruct (bool_decide (sig ∈ notified)); [|done]. cbn.
    match goal with |- context [if ?b then _ else _] => by destruct b end.
  - unfold run_watcher.
    destruct (watcher (run started acts)); try done.
    by destruct (buf (signalChan (run started acts))).
Qed.

(** X10: after any schedule, at most one signal waits in [signalChan],
    whose capacity stays 1 and which is never closed; nothing is ever sent
    on [stopChan]: its buffer stays empty, it is used by closing it only. *)
Theorem channels_stay_within_capacity (acts : list Action) :
  let r := run started acts in
  (length (buf (signalChan r)) <= cap (signalChan r))%nat /\
  cap (signalChan r) = 1%nat /\
  closed (signalChan r) = false /\
  buf (stopChan r) = [] /\
  cap (stopChan r) = 1%nat.
Proof.
  intros r. pose proof (watcher_inv_run acts) as Hinv. fold r in Hinv.
  destruct Hinv as (_ & Hcap & Hlen & Hstop & _).
  rewrite Hcap, Hstop. split_and!; try done.
  apply signalChan_not_closed.
Qed.

(** X13: after any schedule, what the watcher has logged is an initial
    part of its two entries, written for the first SIGINT or SIGTERM of the
    schedule; without such a signal it has logged nothing.  No entry is
    written twice and none for a later signal. *)
Theorem watcher_log_is_for_the_first_signal (acts : list Action) :
  match head (deliveries acts) with
  | Some sig => logged (run started acts) `prefix_of` [received sig; stopping]
  | None => logged (run started acts) = []
  end.
Proof.
  pose proof (watcher_inv_run acts) as (_ & _ & _ & _ & _ & Hw).
  destruct (watcher (run started acts)).
  - destruct Hw as [_ ->]. destruct (head (deliveries acts)); [|done].
    apply prefix_nil.
  - destruct Hw as [-> ->]. apply prefix_nil.
  - destruct Hw as (sig & -> & ->). by exists [stopping].
  - destruct Hw as (sig & -> & ->). done.
  - destruct Hw as (sig & -> & ->). done.
Qed.

(** ** Failing credentials (lines 38-45) *)

(** X1: when the chosen client constructor fails, the run ends at that
    call: the configuration file is not opened, no node group is
    validated, and nothing of lines 84-95 is started. *)
Theorem credential_failure_stops_before_config (w : World) :
  0 <= loglevel w <= 5 ->
  resolution_fails w ->
  (exists status, result (main w) = Exit status) /\
  (exists e, last (trace (main w)) = Some e /\ is_client e = true) /\
  config_events (trace (main w)) = [] /\
  validated (trace (main w)) = [] /\
  coordinator_events (trace (main w)) = [].
Proof.
  intros Hlevel Hfail.
  main_cases w; use_hyps_more; main_run; proj_more;
    (split_and!; [by eexists|eexists; split; [reflexivity|done]|done..]).
Qed.

Lemma credential_failure_stops_before_config_witness :
  let w := {| loglevel := 4; addr := ":8080"; scanInterval := 60000000000;
              kubeConfigFile := None; nodegroupConfigFile := "nodegroups.yaml";
              drymode := false;
              NewOutOfClusterClient := fun _ => Some 1%nat;
              NewInClusterClient := None;
              Open := fun path => inl path;
              UnmarshalNodeGroupOptions := fun _ => ([], None);
              ValidateNodeGroup := spec_ValidateNodeGroup |} in
  (exists status, result (main w) = Exit status) /\
  (exists e, last (trace (main w)) = Some e /\ is_client e = true) /\
  config_events (trace (main w)) = [] /\
  validated (trace (main w)) = [] /\
  coordinator_events (trace (main w)) = [].
Proof.
  intros w.
  apply (credential_failure_stops_before_config w).
  - cbn. lia.
  - right. split; [by left|done].
Defined.

(** ** When the driver is started *)

Lemma elem_of_filter {A} (f : A -> bool) (x : A) (l : list A) :
  f x = true -> (x ∈ l <-> In x (List.filter f l)).
Proof.
  intros Hx. rewrite List.filter_In, list_elem_of_In. tauto.
Qed.

(** X2: once the flags are parsed, [main] gets to call [RunForever]
    exactly when the log level is within 0..5, the chosen client
    constructor answers, the configuration file opens and decodes without
    error, and no node group has a validation error. *)
Theorem driver_started_iff_startup_succeeds (w : World) :
  EvRunForever true ∈ trace (main w) <->
  0 <= loglevel w <= 5 /\
  (exists c, resolves w c) /\
  (exists ngs, loads w ngs /\
               Forall (fun ng => ValidateNodeGroup w ng = []) ngs).
Proof.
  rewrite (elem_of_filter is_driver) by done. fold (driver_events (trace (main w))).
  main_cases w; main_run; proj_simpl; cbn [In].
  all: split;
    [try (by intros []);
     try (intros [Hin|[Hin|[]]]; [discriminate Hin|])|
     try (intros (Hlevel & [c0 Hres] & ngs0 & Hload & Hpass); by use_hyps)].
  all: try (split; [level_lia|]).
  all: try (split;
    [eexists; first [by eapply resolves_intro_out
                    |eapply resolves_intro_in; [|done];
                     first [by left|right; by eexists]]
    |eexists; split; [by eexists|by apply find_offending_Forall]]).
  all: intros _; by auto.
Qed.

(** ** Fatal log entries *)

Lemma fatal_logs_cons e t :
  fatal_logs (e :: t) = (if is_fatal_log e then [e] else []) ++ fatal_logs t.
Proof. unfold fatal_logs. cbn. by destruct (is_fatal_log e). Qed.

Lemma fatal_logs_app t1 t2 :
  fatal_logs (t1 ++ t2) = fatal_logs t1 ++ fatal_logs t2.
Proof. apply List.filter_app. Qed.

Lemma fatal_logs_pass w ngs : fatal_logs (ngs ≫= pass_events w) = [].
Proof. by apply filter_bind_nil. Qed.

Lemma fatal_logs_fail w ng :
  fatal_logs (fail_events w ng) =
  [fatal_entry w ng (length (ValidateNodeGroup w ng))].
Proof.
  unfold fail_events, fatal_logs. cbn.
  by rewrite List.filter_app, filter_map_nil.
Qed.

Create Rewrite HintDb proj_fatal.
#[global] Hint Rewrite
  fatal_logs_cons fatal_logs_app fatal_logs_pass fatal_logs_fail : proj_fatal.

(** Reads off the fatal entries of the run in the case at hand. *)
Ltac fatal_cases w e Hin :=
  apply (elem_of_filter is_fatal_log) in Hin; [|done];
  fold (fatal_logs (trace (main w))) in Hin; revert Hin;
  main_cases w; main_run; proj_more;
  autorewrite with proj_fatal;
  cbn [is_fatal_log app In]; rewrite ?app_nil_r; cbn [In];
  intros Hin; decompose [or] Hin; try contradiction; subst e.

(** X4: a run of [main] in which a fatal log entry is written routes no
    signal, starts no watcher and no metrics endpoint, and does not touch
    the controller. *)
Theorem fatal_entry_excludes_launch (w : World) (e : Event) :
  e ∈ trace (main w) ->
  is_fatal_log e = true ->
  coordinator_events (trace (main w)) = [].
Proof.
  intros Hin Hfatal. fatal_cases w e Hin; done.
Qed.

Lemma fatal_entry_excludes_launch_witness :
  let w := world_unreadable [nodegroup "pool-a" false 1 3] in
  coordinator_events (trace (main w)) = [].
Proof.
  intros w.
  apply (fatal_entry_excludes_launch w
           (EvLog FatalLevel [] "Failed to open configFile: %v"
              [AErr "no such file or directory"])).
  - apply list_elem_of_In. vm_compute. tauto.
  - reflexivity.
Defined.

(** X5: a fatal log entry is the last call of its run, which then ends
    with exit status 1: a run has at most one fatal entry and [main] does
    nothing after it. *)
Theorem fatal_entry_is_last_call (w : World) (e : Event) :
  e ∈ trace (main w) ->
  is_fatal_log e = true ->
  last (trace (main w)) = Some e /\
  fatal_logs (trace (main w)) = [e] /\
  result (main w) = Exit 1.
Proof.
  intros Hin Hfatal. fatal_cases w e Hin.
  all: split_and!; try done.
  all: by rewrite ?app_comm_cons, ?last_fail_events.
Qed.

Lemma fatal_entry_is_last_call_witness :
  let w := world 4 None false [nodegroup "pool-a" false 1 3;
                               nodegroup "pool-b" false 3 1] in
  let e := fatal_entry w (nodegroup "pool-b" false 3 1) 1 in
  last (trace (main w)) = Some e /\
  fatal_logs (trace (main w)) = [e] /\
  result (main w) = Exit 1.
Proof.
  intros w e.
  apply (fatal_entry_is_last_call w e).
  - apply list_elem_of_In. vm_compute. tauto.
  - reflexivity.
Defined.

(** ** The close of [stopChan], and the signals after it *)







